(** * gen-sql-keywords.py: the keyword extractor

    The script reads [tree-sitter-sql/grammar.js], scans it with
    [re.finditer(r'kw\("([\w ]+)"\)', text)] and writes the captured
    keywords to [src/sql.ts] as a TypeScript array declaration.

    The development embeds the script in three layers:
    - the regular expression, as the operation list Python's [re] compiles
      it to, run by a backtracking matcher ([sre_match], [search],
      [finditer]);
    - the loop that builds [chunks] and joins them ([loop], [generate]);
    - the two file accesses, over a file system held as a finite map
      ([read_text], [write_text], [main]). *)

From Stdlib Require Import NArith Ascii String.
From stdpp Require Import gmap strings list sorting.
From Equations.Prop Require Import Equations Logic.

Set Default Proof Using "Type".

(** ** Text *)

(** A Python [str] is a sequence of Unicode code points. *)
Definition codepoint := N.
Abbreviation text := (list codepoint).

(** [ord c], for the characters written in the script. *)
Definition ord (a : ascii) : codepoint := N_of_ascii a.

(** A string literal of the script, as the text it denotes. *)
Fixpoint str (s : string) : text :=
  match s with
  | EmptyString => []
  | String a s' => ord a :: str s'
  end.

Definition NL : codepoint := 10%N.      (* the line feed *)
Definition DQUOTE : codepoint := 34%N.  (* the double quote *)
Definition SPACE : codepoint := 32%N.   (* the space *)

(** [0-9A-Za-z]: what [str.isalnum] accepts below U+0080. *)
Definition ascii_alnum (c : codepoint) : bool :=
  ((48 <=? c) && (c <=? 57) || (65 <=? c) && (c <=? 90)
   || (97 <=? c) && (c <=? 122))%N.

(** A classification that is never consulted on a text of code points
    below U+0080; the closed examples below are such texts. *)
Definition ascii_only : codepoint -> bool := fun _ => false.

(** ** Errors *)

Inductive exn :=
| OSError (path : string)   (* the file cannot be opened, read or written *)
| UnicodeDecodeError        (* the bytes read are no text in the encoding *)
| TypeError.                (* [str + None] *)

Definition result (A : Type) := (exn + A)%type.

Definition bind {A B} (r : result A) (k : A -> result B) : result B :=
  match r with
  | inl e => inl e
  | inr a => k a
  end.

Notation "x <~ r ;; k" := (bind r (fun x => k))
  (at level 100, r at next level, right associativity).

(** ** Files *)

(** What a file holds, as [read_text] finds it: bytes that the encoding of
    the locale decodes to a text, or bytes that it does not decode. *)
Inductive content :=
| Text (t : text)
| Undecodable.

Definition decoded (c : content) : option text :=
  match c with
  | Text t => Some t
  | Undecodable => None
  end.

(** The files that can be opened for reading, with what they hold, and
    the paths that can be opened for writing. A path absent from
    [contents] is a file that is not there or may not be read. *)
Record filesystem :=
  { contents : gmap string content; writable : string -> bool }.

(** The files that can be read as text, with their text. *)
Definition files (fs : filesystem) : gmap string text :=
  omap decoded (contents fs).

(** [Path(p).read_text()]: opening the file raises a subclass of
    [OSError]; decoding its bytes raises [UnicodeDecodeError], which is a
    [ValueError]. *)
Definition read_text (p : string) (fs : filesystem) : result text :=
  match contents fs !! p with
  | Some (Text t) => inr t
  | Some Undecodable => inl UnicodeDecodeError
  | None => inl (OSError p)
  end.

(** [Path(p).write_text(data)]: the file is opened for writing, which
    truncates it, and [data] becomes its whole content. The text the
    script writes is made of characters of its own literals and of
    characters decoded from the input, which the same encoding encodes. *)
Definition write_text (p : string) (data : text) (fs : filesystem)
    : result filesystem :=
  if writable fs p
  then inr {| contents := <[p := Text data]> (contents fs);
              writable := writable fs |}
  else inl (OSError p).

Definition grammar_js : string := "tree-sitter-sql/grammar.js".
Definition sql_ts : string := "src/sql.ts".

Section Extractor.

(** [str.isalnum] on the code points from U+0080 on is a table of the
    Python runtime, not of this repository. *)
Variable uni_alnum : codepoint -> bool.

Definition isalnum (c : codepoint) : bool :=
  if (c <? 128)%N then ascii_alnum c else uni_alnum c.

(** [\w] under a [str] pattern: alphanumeric, or the underscore. *)
Definition uni_is_word (c : codepoint) : bool :=
  isalnum c || (c =? 95)%N.

(** ** The compiled pattern *)

Inductive set_item :=
| CATEGORY_UNI_WORD                 (* \w *)
| SET_LITERAL (c : codepoint).      (* a character listed in [...] *)

Inductive op :=
| LITERAL (c : codepoint)
| MARK (i : nat)
| REPEAT_ONE (min : nat) (items : list set_item).   (* greedy, unbounded *)

Definition item_matches (it : set_item) (c : codepoint) : bool :=
  match it with
  | CATEGORY_UNI_WORD => uni_is_word c
  | SET_LITERAL d => (c =? d)%N
  end.

Definition in_set (items : list set_item) (c : codepoint) : bool :=
  existsb (fun it => item_matches it c) items.

(** [kw\("([\w ]+)"\)] *)
Definition pattern : list op :=
  [ LITERAL (ord "k"); LITERAL (ord "w"); LITERAL (ord "("); LITERAL DQUOTE;
    MARK 0; REPEAT_ONE 1 [CATEGORY_UNI_WORD; SET_LITERAL SPACE]; MARK 1;
    LITERAL DQUOTE; LITERAL (ord ")") ].

(** ** The matcher *)

(** A mark is a pointer into the subject: the text from there on. *)
Definition marks := list (nat * text).

Fixpoint get_mark (i : nat) (ms : marks) : option text :=
  match ms with
  | [] => None
  | (j, p) :: ms' => if Nat.eqb i j then Some p else get_mark i ms'
  end.

(** The greedy repetition of a one-character set: take as many characters
    as match, then run the rest of the pattern; when that fails give one
    character back and run it again, down to [min] characters. *)
Fixpoint repeat_one {R} (P : codepoint -> bool) (min : nat) (s : text)
    (tail : text -> option R) : option R :=
  let stop := match min with O => tail s | S _ => None end in
  match s with
  | c :: s' =>
      if P c then
        match repeat_one P (Nat.pred min) s' tail with
        | Some r => Some r
        | None => stop
        end
      else stop
  | [] => stop
  end.

(** One attempt at one position: the marks set and the text left. *)
Fixpoint sre_match (code : list op) (ms : marks) (s : text)
    : option (marks * text) :=
  match code with
  | [] => Some (ms, s)
  | LITERAL c :: code' =>
      match s with
      | d :: s' => if (d =? c)%N then sre_match code' ms s' else None
      | [] => None
      end
  | MARK i :: code' => sre_match code' ((i, s) :: ms) s
  | REPEAT_ONE min items :: code' =>
      repeat_one (in_set items) min s (sre_match code' ms)
  end.

(** A match object: [m.start()], [m.end()] and the marks behind
    [m.group(n)]. *)
Record Match := { m_start : nat; m_end : nat; m_marks : marks }.

(** [m.group(n)]: the text between the marks [2n-2] and [2n-1], [None]
    when the group took no part in the match. *)
Definition group (n : nat) (m : Match) : option text :=
  match get_mark (2 * n - 2) (m_marks m), get_mark (2 * n - 1) (m_marks m) with
  | Some p, Some q => Some (take (length p - length q) p)
  | _, _ => None
  end.

(** The first position from [pos] on at which the pattern matches; [s] is
    the subject from [pos] on. *)
Fixpoint search (pos : nat) (s : text) : option (Match * text) :=
  match sre_match pattern [] s with
  | Some (ms, rest) =>
      Some ({| m_start := pos; m_end := pos + (length s - length rest);
               m_marks := ms |}, rest)
  | None =>
      match s with
      | [] => None
      | _ :: s' => search (S pos) s'
      end
  end.

(** A repetition that succeeds stopped after a run of at least [min]
    characters of the set, where the rest of the pattern succeeded. *)
Lemma repeat_one_Some {R} P min s (tail : text -> option R) r :
  repeat_one P min s tail = Some r ->
  exists run s', s = run ++ s' /\ Forall (fun c => P c = true) run
    /\ min <= length run /\ tail s' = Some r.
Proof.
  revert min. induction s as [|c s IH]; intros min H; simpl in H.
  - destruct min; [|discriminate]. exists [], []. auto.
  - assert (Hstop : match min with 0 => tail (c :: s) | S _ => None end = Some r ->
      exists run s', c :: s = run ++ s' /\ Forall (fun c => P c = true) run
        /\ min <= length run /\ tail s' = Some r).
    { destruct min; [|discriminate]. intros Ht. exists [], (c :: s). auto. }
    destruct (P c) eqn:HP; [|auto].
    destruct (repeat_one P (Nat.pred min) s tail) as [r'|] eqn:Hrec; [|auto].
    injection H as ->. destruct (IH _ Hrec) as (run & s' & -> & Hrun & Hmin & Ht).
    exists (c :: run), s'. repeat split; auto. simpl. lia.
Qed.

Lemma sre_match_length code ms s ms' rest :
  sre_match code ms s = Some (ms', rest) -> length rest <= length s.
Proof.
  revert ms s. induction code as [|o code IH]; intros ms s H; simpl in H.
  - injection H as _ ->. lia.
  - destruct o as [c|i|min items].
    + destruct s as [|d s]; [discriminate|].
      destruct (d =? c)%N; [|discriminate]. apply IH in H. simpl. lia.
    + eauto.
    + apply repeat_one_Some in H as (run & s' & -> & _ & _ & H).
      apply IH in H. rewrite length_app. lia.
Qed.

Lemma sre_match_literal c code ms s ms' rest :
  sre_match (LITERAL c :: code) ms s = Some (ms', rest) ->
  length rest < length s.
Proof.
  destruct s as [|d s]; simpl; [discriminate|].
  destruct (d =? c)%N; [|discriminate].
  intros H%sre_match_length. lia.
Qed.

(** The pattern starts with a literal: a match is never empty. *)
Lemma search_progress pos s m rest :
  search pos s = Some (m, rest) -> length rest < length s.
Proof.
  revert pos. induction s as [|c s IH]; intros pos H.
  - discriminate.
  - cbn [search] in H.
    destruct (sre_match pattern [] (c :: s)) as [[ms r]|] eqn:Hm.
    + injection H as _ ->. exact (sre_match_literal _ _ _ _ _ _ Hm).
    + apply IH in H. simpl. lia.
Qed.

(** [re.finditer]: the matches of successive searches, each search
    starting where the match before it ended. *)
Equations? finditer_from (pos : nat) (s : text) : list Match
    by wf (length s) lt :=
  finditer_from pos s with inspect (search pos s) := {
    | exist _ None _ => [];
    | exist _ (Some (m, rest)) _ => m :: finditer_from (m_end m) rest }.
Proof. eapply search_progress; eauto. Qed.

Definition finditer (s : text) : list Match := finditer_from 0 s.

(** ** The script *)

Definition header : text := str "export const KEYWORDS = [" ++ [NL].
Definition footer : text := str "]" ++ [NL].

(** A keyword as an element of the array, on a line of its own. *)
Definition quoted (k : text) : text := str "  '" ++ k ++ str "'," ++ [NL].

(** The chunk appended for one match; [m.group(1)] that is [None] cannot
    be added to a string. *)
Definition chunk (m : Match) : result text :=
  match group 1 m with
  | Some k => inr (quoted k)
  | None => inl TypeError
  end.

(** The [for] loop over the matches, appending to [chunks]. *)
Fixpoint loop (ms : list Match) (chunks : list text) : result (list text) :=
  match ms with
  | [] => inr chunks
  | m :: ms' => c <~ chunk m ;; loop ms' (chunks ++ [c])
  end.

(** From the text read to the text written. *)
Definition generate (t : text) : result text :=
  chunks <~ loop (finditer t) [header] ;;
  inr (concat (chunks ++ [footer])).

Definition main (fs : filesystem) : result filesystem :=
  t <~ read_text grammar_js fs ;;
  out <~ generate t ;;
  write_text sql_ts out fs.

(** ** The pattern, as the specification words it *)

(** A word character or a space. *)
Definition keyword_char (c : codepoint) : bool :=
  uni_is_word c || (c =? SPACE)%N.

(** A non-empty sequence of word characters and spaces. *)
Definition keyword (k : text) : Prop :=
  k <> [] /\ Forall (fun c => keyword_char c = true) k.

(** The marker, the opening delimiter, the quoted keyword and the closing
    delimiter. *)
Definition occurrence (k : text) : text :=
  str "kw(" ++ [DQUOTE] ++ k ++ [DQUOTE] ++ str ")".

(** The pattern occurs in [t] at offset [i], around the keyword [k]. *)
Definition occurs_at (t : text) (i : nat) (k : text) : Prop :=
  keyword k /\ exists pre post, t = pre ++ occurrence k ++ post /\ length pre = i.

(** [l] lists the occurrences of the pattern in [t], each with its offset,
    in the order of appearance. *)
Definition occurrences (t : text) (l : list (nat * text)) : Prop :=
  StronglySorted (fun a b => a.1 < b.1) l
  /\ forall i k, (i, k) ∈ l <-> occurs_at t i k.

(** What the matches of a scan captured: offset and keyword. *)
Definition captures (ms : list Match) : list (nat * text) :=
  omap (fun m => k ← group 1 m; Some (m_start m, k)) ms.

(** The keywords of a text: what [m.group(1)] is over the matches. *)
Definition keywords (t : text) : list text := (captures (finditer t)).*2.

(** The file written for a list of keywords. *)
Definition rendered (ks : list text) : text :=
  header ++ concat (map quoted ks) ++ footer.

(** The text cut at its line feeds. *)
Fixpoint lines (s : text) : list text :=
  match s with
  | [] => [[]]
  | c :: s' =>
      if (c =? NL)%N then [] :: lines s'
      else match lines s' with
           | l :: ls => (c :: l) :: ls
           | [] => [[c]]
           end
  end.

(** How often [c] occurs in [s]. *)
Fixpoint count (c : codepoint) (s : text) : nat :=
  match s with
  | [] => 0
  | d :: s' => (if (d =? c)%N then 1 else 0) + count c s'
  end.

(** The near-matches: the argument in single quotes, the argument bare,
    and the argument empty. *)
Definition single_quoted (t : text) : text := str "kw('" ++ t ++ str "')".
Definition unquoted (t : text) : text := str "kw(" ++ t ++ str ")".
Definition empty_quoted : text := str "kw(" ++ [DQUOTE; DQUOTE] ++ str ")".

(** ** Texts and file systems for the closed instances *)

(** A grammar fragment with three calls of the marker. *)
Definition sample : text :=
  str "seq(" ++ occurrence (str "select") ++ str ", "
  ++ occurrence (str "from") ++ str ", "
  ++ occurrence (str "group by") ++ str ")".

(** A grammar with no call of the marker. *)
Definition plain : text := str "module.exports = grammar({});".

(** A file system that holds [t] as the grammar and nothing else. *)
Definition only_grammar (t : text) : filesystem :=
  {| contents := {[ grammar_js := Text t ]}; writable := fun _ => true |}.

(** The marks a match around [k] leaves, [rest] being the text after it. *)
Definition match_marks (k rest : text) : marks :=
  [(1, DQUOTE :: ord ")" :: rest); (0, k ++ DQUOTE :: ord ")" :: rest)].

(** The match object of an occurrence of [k] at [pos]. *)
Definition match_of (pos : nat) (k rest : text) : Match :=
  {| m_start := pos; m_end := pos + length (occurrence k);
     m_marks := match_marks k rest |}.

(** The scan as a step relation: at each position the pattern either
    fails, and the scan moves on by one character, or matches, and the
    scan resumes after the match. *)
Inductive scan : nat -> text -> list Match -> Prop :=
| scan_end pos :
    scan pos [] []
| scan_skip pos c s ms :
    sre_match pattern [] (c :: s) = None ->
    scan (S pos) s ms ->
    scan pos (c :: s) ms
| scan_hit pos k rest ms :
    keyword k ->
    scan (pos + length (occurrence k)) rest ms ->
    scan pos (occurrence k ++ rest) (match_of pos k rest :: ms).

(** Matches in scanning order that do not overlap, none starting before
    [pos]. *)
Fixpoint spaced (pos : nat) (ms : list Match) : Prop :=
  match ms with
  | [] => True
  | m :: ms' => pos <= m_start m /\ m_start m < m_end m /\ spaced (m_end m) ms'
  end.

(** ** Characters *)

Lemma in_set_class c :
  in_set [CATEGORY_UNI_WORD; SET_LITERAL SPACE] c = keyword_char c.
Proof. unfold in_set, keyword_char. simpl. by rewrite orb_false_r. Qed.

(** None of the characters the script writes around a keyword, and none
    of the pattern's delimiters, is a word character or a space. *)
Lemma keyword_char_punct c :
  keyword_char c = true ->
  c <> NL /\ c <> DQUOTE /\ c <> ord "'" /\ c <> ord "(" /\ c <> ord ")"
  /\ c <> ord "[" /\ c <> ord "]" /\ c <> ord ",".
Proof.
  intros H. repeat split; intros ->; vm_compute in H; discriminate.
Qed.

Lemma keyword_cons c k :
  keyword_char c = true -> Forall (fun c => keyword_char c = true) k ->
  keyword (c :: k).
Proof. intros. split; [done | by constructor]. Qed.

(** ** One attempt at one position *)

(** When the rest of the pattern cannot start with a character of the
    set, the repetition takes the whole run and nothing is given back. *)
Lemma repeat_one_run {R} P min run s' (tail : text -> option R) r :
  Forall (fun c => P c = true) run ->
  min <= length run ->
  (forall c x, P c = true -> tail (c :: x) = None) ->
  tail s' = Some r ->
  repeat_one P min (run ++ s') tail = Some r.
Proof.
  intros Hrun. revert min. induction Hrun as [|c run Hc Hrun IH];
    intros min Hmin Htail Hs'.
  - simpl in Hmin. assert (min = 0) as -> by lia.
    destruct s' as [|c x]; [done|]. simpl.
    destruct (P c) eqn:HP; [|done].
    rewrite Htail in Hs'; [discriminate | done].
  - simpl. rewrite Hc, IH; [done | simpl in Hmin; lia | done | done].
Qed.

Lemma sre_match_occurrence k rest :
  keyword k ->
  sre_match pattern [] (occurrence k ++ rest) = Some (match_marks k rest, rest).
Proof.
  intros [Hne Hk]. unfold occurrence, pattern. cbn [str app sre_match].
  change (ord "k" =? ord "k")%N with true.
  change (ord "w" =? ord "w")%N with true.
  change (ord "(" =? ord "(")%N with true.
  change (DQUOTE =? DQUOTE)%N with true. cbn iota.
  rewrite <- !app_assoc. apply repeat_one_run.
  - eapply Forall_impl; [exact Hk|]. intros c Hc. by rewrite in_set_class.
  - destruct k; [done | simpl; lia].
  - intros c x Hc. rewrite in_set_class in Hc.
    apply keyword_char_punct in Hc as (_ & Hq & _).
    cbn [sre_match]. by apply N.eqb_neq in Hq as ->.
  - reflexivity.
Qed.

Lemma sre_match_inv s ms rest :
  sre_match pattern [] s = Some (ms, rest) ->
  exists k, keyword k /\ s = occurrence k ++ rest /\ ms = match_marks k rest.
Proof.
  unfold pattern. cbn [sre_match]. intros H.
  destruct s as [|c1 s]; [done|].
  destruct (c1 =? ord "k")%N eqn:E1; [|done]. apply N.eqb_eq in E1 as ->.
  destruct s as [|c2 s]; [done|].
  destruct (c2 =? ord "w")%N eqn:E2; [|done]. apply N.eqb_eq in E2 as ->.
  destruct s as [|c3 s]; [done|].
  destruct (c3 =? ord "(")%N eqn:E3; [|done]. apply N.eqb_eq in E3 as ->.
  destruct s as [|c4 s]; [done|].
  destruct (c4 =? DQUOTE)%N eqn:E4; [|done]. apply N.eqb_eq in E4 as ->.
  apply repeat_one_Some in H as (k & s' & -> & Hk & Hmin & H).
  destruct s' as [|c5 s']; [done|].
  destruct (c5 =? DQUOTE)%N eqn:E5; [|done]. apply N.eqb_eq in E5 as ->.
  destruct s' as [|c6 s']; [done|].
  destruct (c6 =? ord ")")%N eqn:E6; [|done]. apply N.eqb_eq in E6 as ->.
  injection H as <- <-. exists k. split; [|split; [|done]].
  - split; [destruct k; [simpl in Hmin; lia | done]|].
    eapply Forall_impl; [exact Hk|]. intros c Hc.
    rewrite <- in_set_class. exact Hc.
  - unfold occurrence. simpl. by rewrite <- !app_assoc.
Qed.

(** ** The scan *)

Lemma finditer_from_eq pos s :
  finditer_from pos s =
  match search pos s with
  | None => []
  | Some (m, rest) => m :: finditer_from (m_end m) rest
  end.
Proof.
  rewrite finditer_from_equation_1. unfold inspect.
  assert (Hgen : forall o (e : search pos s = o),
    finditer_from_unfold_clause_1 pos s (exist _ o e) =
    match o with
    | None => []
    | Some (m, rest) => m :: finditer_from (m_end m) rest
    end).
  { intros [[m rest]|] e; reflexivity. }
  apply Hgen.
Qed.

Lemma group_match_of pos k rest : group 1 (match_of pos k rest) = Some k.
Proof.
  unfold group, match_of, match_marks. cbn [m_marks get_mark Nat.eqb Nat.mul Nat.add Nat.sub].
  f_equal. rewrite length_app, Nat.add_sub. apply take_app_length.
Qed.

(** A search that finds nothing: the pattern matches at no offset. *)
Lemma search_None pos s :
  search pos s = None ->
  forall j, sre_match pattern [] (drop j s) = None.
Proof.
  revert pos. induction s as [|c s IH]; intros pos H j.
  - by rewrite drop_nil.
  - cbn [search] in H.
    destruct (sre_match pattern [] (c :: s)) as [[ms r]|] eqn:Hm; [done|].
    destruct j as [|j]; [done|].
    change (drop (S j) (c :: s)) with (drop j s). eauto.
Qed.

(** A search that finds a match: the leftmost occurrence. *)
Lemma search_Some pos s m rest :
  search pos s = Some (m, rest) ->
  exists pre k, keyword k /\ s = pre ++ occurrence k ++ rest
    /\ m = match_of (pos + length pre) k rest
    /\ forall j, j < length pre -> sre_match pattern [] (drop j s) = None.
Proof.
  revert pos. induction s as [|c s IH]; intros pos H.
  - done.
  - cbn [search] in H.
    destruct (sre_match pattern [] (c :: s)) as [[ms r]|] eqn:Hm.
    + injection H as <- <-.
      destruct (sre_match_inv _ _ _ Hm) as (k & Hk & Hs & ->).
      exists [], k. split; [done|]. split; [done|]. split.
      * apply (f_equal length) in Hs as Hlen. rewrite length_app in Hlen.
        unfold match_of. cbn [length] in *. f_equal; lia.
      * cbn [length]. lia.
    + destruct (IH _ H) as (pre & k & Hk & -> & -> & Hleft).
      exists (c :: pre), k. split; [done|]. split; [done|]. split.
      * unfold match_of. cbn [length]. f_equal; lia.
      * intros [|j] Hj; [done|]. rewrite skipn_cons.
        apply Hleft. cbn [length] in Hj. lia.
Qed.

Lemma finditer_from_nil pos : finditer_from pos [] = [].
Proof. by rewrite finditer_from_eq. Qed.

Lemma finditer_from_skip pos c s :
  sre_match pattern [] (c :: s) = None ->
  finditer_from pos (c :: s) = finditer_from (S pos) s.
Proof.
  intros H. rewrite (finditer_from_eq pos), (finditer_from_eq (S pos)).
  cbn [search]. by rewrite H.
Qed.

Lemma finditer_from_hit pos k rest :
  keyword k ->
  finditer_from pos (occurrence k ++ rest) =
  match_of pos k rest :: finditer_from (pos + length (occurrence k)) rest.
Proof.
  intros Hk. rewrite finditer_from_eq.
  assert (search pos (occurrence k ++ rest) = Some (match_of pos k rest, rest))
    as ->; [|done].
  pose proof (sre_match_occurrence k rest Hk) as Hm.
  destruct (occurrence k ++ rest) as [|c s] eqn:Hs; [done|].
  cbn [search]. rewrite Hm. unfold match_of. do 3 f_equal.
  change (S (length s)) with (length (c :: s)).
  rewrite <- Hs, length_app. lia.
Qed.

(** [finditer] runs the scan to its end, on every text. *)
Lemma finditer_scan pos s : scan pos s (finditer_from pos s).
Proof.
  remember (length s) as n eqn:Hn. revert pos s Hn.
  induction (lt_wf n) as [n _ IH]. intros pos s ->.
  destruct s as [|c s].
  - rewrite finditer_from_nil. constructor.
  - destruct (sre_match pattern [] (c :: s)) as [[ms rest]|] eqn:Hm.
    + destruct (sre_match_inv _ _ _ Hm) as (k & Hk & Hs & ->).
      rewrite Hs, finditer_from_hit by done. constructor; [done|].
      eapply IH; [|done]. rewrite Hs, length_app.
      unfold occurrence. simpl. lia.
    + rewrite finditer_from_skip by done. constructor; [done|].
      eapply IH; [|done]. simpl. lia.
Qed.

(** ** Occurrences *)

(** A match starts with the marker and the opening delimiter. *)
Lemma sre_match_starts s r :
  sre_match pattern [] s = Some r ->
  exists x, s = ord "k" :: ord "w" :: ord "(" :: x.
Proof.
  destruct r as [ms rest]. intros (k & _ & -> & _)%sre_match_inv.
  unfold occurrence. simpl. eauto.
Qed.

(** No marker with its delimiter starts inside a quoted keyword or on the
    closing delimiter. *)
Lemma keyword_not_start k rest e x :
  Forall (fun c => keyword_char c = true) k ->
  drop e (k ++ DQUOTE :: ord ")" :: rest) = ord "k" :: ord "w" :: ord "(" :: x ->
  length k + 2 <= e.
Proof.
  intros Hk. revert e. induction Hk as [|c k Hc Hk IH]; intros e He.
  - destruct e as [|[|e]]; [done | done | simpl; lia].
  - destruct e as [|e].
    + exfalso. simpl in He. injection He as _ He.
      destruct Hk as [|c2 k Hc2 Hk]; [done|]. injection He as _ He.
      destruct Hk as [|c3 k Hc3 Hk]; [done|]. injection He as -> _.
      by apply keyword_char_punct in Hc3 as (_ & _ & _ & ? & _).
    + rewrite <- app_comm_cons, skipn_cons in He. apply IH in He.
      simpl. lia.
Qed.

(** The pattern matches at no offset strictly inside an occurrence: two
    occurrences never overlap. *)
Lemma occurrence_not_start k rest d x :
  keyword k ->
  0 < d ->
  drop d (occurrence k ++ rest) = ord "k" :: ord "w" :: ord "(" :: x ->
  length (occurrence k) <= d.
Proof.
  intros [_ Hk] Hd He. unfold occurrence in *.
  rewrite !length_app. cbn [str app length] in *.
  rewrite <- !app_assoc in He. cbn [app] in He.
  destruct d as [|[|[|[|d]]]]; [lia | done | done | done |].
  rewrite !skipn_cons in He. apply keyword_not_start in He; [lia | done].
Qed.

Lemma match_marks_inj k k' rest rest' :
  match_marks k rest = match_marks k' rest' -> k = k' /\ rest = rest'.
Proof.
  unfold match_marks. intros H. injection H as Hr Hk. subst rest'.
  split; [|done]. by apply app_inv_tail in Hk.
Qed.

Lemma occurrence_inj k k' rest rest' :
  keyword k -> keyword k' ->
  occurrence k ++ rest = occurrence k' ++ rest' -> k = k' /\ rest = rest'.
Proof.
  intros Hk Hk' He.
  pose proof (sre_match_occurrence k rest Hk) as H.
  rewrite He, (sre_match_occurrence k' rest' Hk') in H.
  assert (Hm : match_marks k' rest' = match_marks k rest) by congruence.
  by apply match_marks_inj in Hm as [-> ->].
Qed.

(** The pattern occurs at an offset exactly when an attempt there
    succeeds. *)
Lemma occurs_at_drop t i k :
  occurs_at t i k <->
  exists post, sre_match pattern [] (drop i t) = Some (match_marks k post, post).
Proof.
  split.
  - intros (Hk & pre & post & -> & <-). exists post.
    rewrite drop_app_length. by apply sre_match_occurrence.
  - intros (post & H).
    destruct (sre_match_inv _ _ _ H) as (k' & Hk' & Hd & Hm).
    apply match_marks_inj in Hm as [<- _].
    split; [done|]. exists (take i t), post. split.
    + by rewrite <- Hd, take_drop.
    + apply length_take_le.
      destruct (decide (i <= length t)) as [|Hgt]; [done|].
      rewrite drop_ge in Hd by lia. by destruct k.
Qed.

Lemma occurs_at_nil i k : ~ occurs_at [] i k.
Proof. rewrite occurs_at_drop, drop_nil. by intros [post H]. Qed.

Lemma occurs_at_cons c s i k :
  occurs_at (c :: s) (S i) k <-> occurs_at s i k.
Proof. by rewrite !occurs_at_drop. Qed.

Lemma occurs_at_skip c s k :
  sre_match pattern [] (c :: s) = None -> ~ occurs_at (c :: s) 0 k.
Proof.
  rewrite occurs_at_drop. intros H [post H']. rewrite skipn_O in H'.
  congruence.
Qed.

(** The occurrences of a text that starts with one: that one, and those
    of the text after it. *)
Lemma occurs_at_hit k rest j k' :
  keyword k ->
  occurs_at (occurrence k ++ rest) j k' <->
  (j = 0 /\ k' = k)
  \/ exists j', j = length (occurrence k) + j' /\ occurs_at rest j' k'.
Proof.
  intros Hk. split.
  - intros H. destruct (decide (j = 0)) as [->|Hj].
    + left. split; [done|]. destruct H as (Hk' & pre & post & He & Hpre).
      destruct pre; [|done]. by apply occurrence_inj in He as [-> _].
    + right. exists (j - length (occurrence k)).
      apply occurs_at_drop in H as [post H].
      destruct (sre_match_starts _ _ H) as [x Hx].
      apply occurrence_not_start in Hx as Hlen; [|done|lia].
      split; [lia|]. apply occurs_at_drop. exists post.
      by rewrite drop_app_ge in H.
  - intros [[-> ->]|(j' & -> & H)].
    + split; [done|]. by exists [], rest.
    + apply occurs_at_drop in H as [post H]. apply occurs_at_drop.
      exists post. by rewrite drop_app_add.
Qed.

(** ** What a scan finds *)

Lemma captures_cons pos k rest ms :
  captures (match_of pos k rest :: ms) = (pos, k) :: captures ms.
Proof. unfold captures. cbn [omap list_omap]. by rewrite group_match_of. Qed.

(** Group 1 takes part in every match, so no chunk raises. *)
Lemma scan_loop pos s ms :
  scan pos s ms ->
  forall chunks, loop ms chunks = inr (chunks ++ map quoted (captures ms).*2).
Proof.
  induction 1 as [pos|pos c s ms Hm Hs IH|pos k rest ms Hk Hs IH];
    intros chunks.
  - simpl. by rewrite app_nil_r.
  - apply IH.
  - rewrite captures_cons. cbn [loop]. unfold chunk.
    rewrite group_match_of. cbn [bind]. rewrite IH.
    by rewrite <- app_assoc.
Qed.

Lemma scan_keywords pos s ms :
  scan pos s ms -> Forall keyword (captures ms).*2.
Proof.
  induction 1 as [pos|pos c s ms Hm Hs IH|pos k rest ms Hk Hs IH].
  - constructor.
  - done.
  - rewrite captures_cons. by constructor.
Qed.

Lemma scan_spaced pos s ms :
  scan pos s ms -> spaced pos ms /\ Forall (fun m => m_end m <= pos + length s) ms.
Proof.
  assert (Hmono : forall p q (l : list Match), p <= q -> spaced q l -> spaced p l).
  { intros p q [|m l] Hpq; [done|]. simpl. intros (? & ? & ?).
    split; [lia | done]. }
  induction 1 as [pos|pos c s ms Hm Hs [IH1 IH2]|pos k rest ms Hk Hs [IH1 IH2]].
  - split; constructor.
  - split; [apply (Hmono _ (S pos)); [lia | done]|].
    eapply Forall_impl; [exact IH2|]. intros m Hle. simpl in *. lia.
  - assert (0 < length (occurrence k)) by (unfold occurrence; simpl; lia).
    split.
    + simpl. split; [lia|]. split; [lia | done].
    + rewrite length_app. constructor; [simpl; lia|].
      eapply Forall_impl; [exact IH2|]. intros m Hle. simpl in *. lia.
Qed.

(** The scan captures every occurrence, and only occurrences. *)
Lemma scan_occurs pos s ms :
  scan pos s ms ->
  forall i k, (i, k) ∈ captures ms <-> exists j, i = pos + j /\ occurs_at s j k.
Proof.
  induction 1 as [pos|pos c s ms Hm Hs IH|pos k rest ms Hk Hs IH];
    intros i k'.
  - split; [by intros ?%elem_of_nil|].
    by intros (j & _ & ?%occurs_at_nil).
  - rewrite IH. split.
    + intros (j & -> & Hj). exists (S j). split; [lia|].
      by apply occurs_at_cons.
    + intros ([|j] & -> & Hj); [by destruct (occurs_at_skip _ _ _ Hm Hj)|].
      exists j. split; [lia|]. by apply (occurs_at_cons c).
  - rewrite captures_cons, elem_of_cons, IH. split.
    + intros [[= -> ->]|(j & -> & Hj)].
      * exists 0. split; [lia|]. apply occurs_at_hit; auto.
      * exists (length (occurrence k) + j). split; [lia|].
        apply occurs_at_hit; eauto.
    + intros (j & -> & [[-> ->]|(j' & -> & Hj')]%occurs_at_hit); [| |done].
      * left. f_equal. lia.
      * right. exists j'. split; [lia | done].
Qed.

(** The captures come in the order of their offsets. *)
Lemma scan_sorted pos s ms :
  scan pos s ms ->
  StronglySorted (fun a b : nat * text => a.1 < b.1) (captures ms)
  /\ Forall (fun a : nat * text => pos <= a.1) (captures ms).
Proof.
  induction 1 as [pos|pos c s ms Hm Hs [IH1 IH2]|pos k rest ms Hk Hs [IH1 IH2]].
  - split; constructor.
  - split; [done|]. eapply Forall_impl; [exact IH2|]. simpl. lia.
  - assert (0 < length (occurrence k)) by (unfold occurrence; simpl; lia).
    rewrite captures_cons. split.
    + constructor; [done|]. eapply Forall_impl; [exact IH2|]. simpl. lia.
    + constructor; [simpl; lia|].
      eapply Forall_impl; [exact IH2|]. simpl. lia.
Qed.

(** The captured keywords do not depend on where the count of offsets
    starts. *)
Lemma scan_keywords_pos pos s ms :
  scan pos s ms ->
  forall pos', (captures (finditer_from pos' s)).*2 = (captures ms).*2.
Proof.
  induction 1 as [pos|pos c s ms Hm Hs IH|pos k rest ms Hk Hs IH]; intros pos'.
  - by rewrite finditer_from_nil.
  - rewrite finditer_from_skip by done. apply IH.
  - rewrite finditer_from_hit, !captures_cons by done.
    cbn [fmap list_fmap snd]. f_equal. apply IH.
Qed.

Lemma keywords_from pos s : (captures (finditer_from pos s)).*2 = keywords s.
Proof. apply (scan_keywords_pos 0), finditer_scan. Qed.

(** ** The text written *)

Lemma generate_rendered t : generate t = inr (rendered (keywords t)).
Proof.
  unfold generate, finditer. rewrite (scan_loop _ _ _ (finditer_scan 0 t)).
  cbn [bind]. f_equal. unfold rendered, keywords, finditer.
  rewrite <- app_assoc, !concat_app. cbn [concat]. by rewrite !app_nil_r.
Qed.

(** ** The list of the occurrences *)

Lemma occurrences_captures t : occurrences t (captures (finditer t)).
Proof.
  pose proof (finditer_scan 0 t) as Hs. split.
  - by apply scan_sorted in Hs as [? _].
  - intros i k. rewrite (scan_occurs _ _ _ Hs). split.
    + by intros (j & -> & ?).
    + intros ?. by exists i.
Qed.

Lemma occurrences_unique t l l' :
  occurrences t l -> occurrences t l' -> l = l'.
Proof.
  assert (Hnodup : forall l0 : list (nat * text),
    StronglySorted (fun a b => a.1 < b.1) l0 -> NoDup l0).
  { induction 1 as [|a l0 Hl IH Ha]; constructor; [|done].
    intros Hin. rewrite Forall_forall in Ha. specialize (Ha _ Hin). lia. }
  intros [Hs Hm] [Hs' Hm'].
  apply (StronglySorted_unique_strong (fun a b => a.1 < b.1)); [|done..|].
  - intros; lia.
  - apply NoDup_Permutation; [by apply Hnodup..|].
    intros [i k]. by rewrite Hm, Hm'.
Qed.

(** ** The keywords of a text, by the shape of the text *)

Lemma keywords_nil : keywords [] = [].
Proof. unfold keywords, finditer. by rewrite finditer_from_nil. Qed.

Lemma keywords_skip c s :
  sre_match pattern [] (c :: s) = None -> keywords (c :: s) = keywords s.
Proof.
  intros H. unfold keywords at 1, finditer.
  rewrite finditer_from_skip by done. apply keywords_from.
Qed.

Lemma keywords_hit k rest :
  keyword k -> keywords (occurrence k ++ rest) = k :: keywords rest.
Proof.
  intros H. unfold keywords at 1, finditer.
  rewrite finditer_from_hit, captures_cons by done.
  cbn [fmap list_fmap snd]. f_equal. apply keywords_from.
Qed.

(** A match starts with the marker, the opening delimiter, the quote and
    one character of the keyword. *)
Lemma sre_match_quote s r :
  sre_match pattern [] s = Some r ->
  exists c x, s = ord "k" :: ord "w" :: ord "(" :: DQUOTE :: c :: x
    /\ keyword_char c = true.
Proof.
  destruct r as [ms rest]. intros (k & [Hne Hk] & -> & _)%sre_match_inv.
  destruct Hk as [|c k Hc Hk]; [done|].
  unfold occurrence. simpl. eauto.
Qed.

Lemma keywords_skip_char c s : c <> ord "k" -> keywords (c :: s) = keywords s.
Proof.
  intros Hc. apply keywords_skip.
  destruct (sre_match pattern [] (c :: s)) as [r|] eqn:H; [|done].
  apply sre_match_starts in H as [x [= -> _]]. done.
Qed.

(** A run of word characters and spaces that something other than the
    rest of the marker follows holds no occurrence. *)
Lemma keywords_skip_run t c rest :
  Forall (fun c => keyword_char c = true) t ->
  c <> ord "k" -> c <> ord "w" -> c <> ord "(" ->
  keywords (t ++ c :: rest) = keywords rest.
Proof.
  intros Ht Hk Hw Hp. induction Ht as [|a t Ha Ht IH].
  - by apply keywords_skip_char.
  - rewrite <- app_comm_cons, keywords_skip; [done|].
    destruct (sre_match pattern [] _) as [r|] eqn:H; [|done]. exfalso.
    apply sre_match_starts in H as [x [= -> H]].
    destruct Ht as [|b t Hb Ht]; [by injection H|]. injection H as -> H.
    destruct Ht as [|b2 t Hb2 Ht]; [by injection H|]. injection H as -> _.
    by apply keyword_char_punct in Hb2 as (_ & _ & _ & ? & _).
Qed.

(** No occurrence runs over the start of a marker with its delimiter. *)
Lemma sre_match_app_None a x :
  a <> [] ->
  sre_match pattern [] a = None ->
  sre_match pattern [] (a ++ ord "k" :: ord "w" :: ord "(" :: x) = None.
Proof.
  intros Ha Hnone.
  destruct (sre_match pattern [] (a ++ _)) as [[ms rest]|] eqn:H; [|done].
  exfalso. destruct (sre_match_inv _ _ _ H) as (k & Hk & He & _).
  assert (Hd : drop (length a) (occurrence k ++ rest)
               = ord "k" :: ord "w" :: ord "(" :: x).
  { by rewrite <- He, drop_app_length. }
  apply occurrence_not_start in Hd; [|done|destruct a; [done | simpl; lia]].
  apply app_eq_inv in He as [(m & -> & _)|(m & Hm & _)].
  - by rewrite (sre_match_occurrence k m Hk) in Hnone.
  - rewrite Hm, length_app in Hd. destruct m; [|simpl in Hd; lia].
    rewrite app_nil_r in Hm. subst a.
    pose proof (sre_match_occurrence k [] Hk) as Hm.
    rewrite app_nil_r in Hm. congruence.
Qed.

Lemma keywords_app a x :
  keywords (a ++ ord "k" :: ord "w" :: ord "(" :: x) =
  keywords a ++ keywords (ord "k" :: ord "w" :: ord "(" :: x).
Proof.
  unfold keywords at 2, finditer. generalize (finditer_scan 0 a).
  generalize (finditer_from 0 a) 0.
  intros ms0 pos0.
  induction 1 as [pos|pos c s ms Hm Hs IH|pos k rest ms Hk Hs IH].
  - done.
  - rewrite <- app_comm_cons, keywords_skip; [done|].
    by apply (sre_match_app_None (c :: s)).
  - rewrite <- app_assoc, keywords_hit, captures_cons by done.
    cbn [fmap list_fmap snd app]. by f_equal.
Qed.

(** ** Near-matches *)

Lemma keywords_single_quoted t post :
  Forall (fun c => keyword_char c = true) t ->
  keywords (single_quoted t ++ post) = keywords post.
Proof.
  intros Ht. unfold single_quoted. rewrite <- !app_assoc. cbn [str app].
  rewrite keywords_skip.
  2:{ destruct (sre_match pattern [] _) as [r|] eqn:H; [|done].
      by apply sre_match_quote in H as (c & x & [= ? ?] & _). }
  rewrite !keywords_skip_char by done.
  rewrite keywords_skip_run by done. by apply keywords_skip_char.
Qed.

Lemma keywords_unquoted t post :
  Forall (fun c => keyword_char c = true) t ->
  keywords (unquoted t ++ post) = keywords post.
Proof.
  intros Ht. unfold unquoted. rewrite <- !app_assoc. cbn [str app].
  rewrite keywords_skip.
  2:{ destruct (sre_match pattern [] _) as [r|] eqn:H; [|done]. exfalso.
      apply sre_match_quote in H as (c & x & [= H] & _).
      destruct Ht as [|a t Ha Ht]; [done|]. injection H as -> _.
      by apply keyword_char_punct in Ha as (_ & ? & _). }
  rewrite !keywords_skip_char by done.
  by rewrite keywords_skip_run.
Qed.

Lemma sre_match_empty_quoted post :
  sre_match pattern [] (empty_quoted ++ post) = None.
Proof.
  destruct (sre_match pattern [] _) as [r|] eqn:H; [|done]. exfalso.
  apply sre_match_quote in H as (c & x & [= <- _] & Hc).
  by apply keyword_char_punct in Hc as (_ & ? & _).
Qed.

Lemma keywords_empty_quoted post :
  keywords (empty_quoted ++ post) = keywords post.
Proof.
  pose proof (sre_match_empty_quoted post) as H. unfold empty_quoted in *.
  rewrite <- !app_assoc in *. cbn [str app] in *.
  rewrite keywords_skip by done. by rewrite !keywords_skip_char.
Qed.

(** ** The lines of the text written *)

Lemma lines_line l s : NL ∉ l -> lines (l ++ NL :: s) = l :: lines s.
Proof.
  induction l as [|c l IH]; intros Hl.
  - done.
  - apply not_elem_of_cons in Hl as [Hc Hl]. rewrite <- app_comm_cons.
    cbn [lines]. rewrite IH by done.
    destruct (N.eqb_spec c NL) as [->|]; done.
Qed.

Lemma keyword_no_NL k : keyword k -> NL ∉ k.
Proof.
  intros [_ Hk] Hin. rewrite Forall_forall in Hk.
  by apply Hk, keyword_char_punct in Hin as (? & _).
Qed.

Lemma lines_rendered ks :
  Forall keyword ks ->
  lines (rendered ks) =
  str "export const KEYWORDS = ["
  :: map (fun k => str "  '" ++ k ++ str "',") ks ++ [str "]"; []].
Proof.
  intros Hks. unfold rendered, header. rewrite <- app_assoc. cbn [app].
  rewrite lines_line by (apply (bool_decide_unpack _); by vm_compute).
  f_equal. induction Hks as [|k ks Hk Hks IH].
  - done.
  - cbn [map concat]. unfold quoted at 1. rewrite <- !app_assoc.
    rewrite (app_assoc (str "  '")), (app_assoc _ (str "',")).
    cbn [app]. rewrite lines_line, IH; [by rewrite <- !app_assoc|].
    rewrite !elem_of_app. apply keyword_no_NL in Hk.
    intros [[H|?]|H]; [|done|]; revert H; apply (bool_decide_unpack _);
      by vm_compute.
Qed.

(** ** The brackets of the text written *)

Lemma count_app c a b : count c (a ++ b) = count c a + count c b.
Proof. induction a as [|d a IH]; [done|]. simpl. rewrite IH. lia. Qed.

Lemma count_keyword c k :
  keyword_char c = false -> keyword k -> count c k = 0.
Proof.
  intros Hc [_ Hk]. induction Hk as [|d k Hd Hk IH]; [done|].
  simpl. rewrite IH. destruct (N.eqb_spec d c) as [->|]; [congruence|done].
Qed.

Lemma count_rendered c ks :
  c = ord "[" \/ c = ord "]" ->
  Forall keyword ks ->
  count c (rendered ks) = count c header + count c footer.
Proof.
  intros Hc Hks. unfold rendered. rewrite !count_app.
  assert (count c (concat (map quoted ks)) = 0) as ->; [|lia].
  induction Hks as [|k ks Hk Hks IH]; [done|].
  cbn [map concat]. unfold quoted at 1. rewrite !count_app, IH.
  rewrite (count_keyword c k); [|by destruct Hc as [->| ->]|done].
  by destruct Hc as [->| ->].
Qed.

Lemma scan_extent pos s ms :
  scan pos s ms ->
  Forall (fun m => exists k, keyword k /\ group 1 m = Some k
                    /\ m_end m = m_start m + length (occurrence k)) ms.
Proof.
  induction 1 as [pos|pos c s ms Hm Hs IH|pos k rest ms Hk Hs IH].
  - constructor.
  - done.
  - constructor; [|done]. exists k. by rewrite group_match_of.
Qed.

(** ** The run *)

Lemma files_lookup fs p t :
  files fs !! p = Some t <-> contents fs !! p = Some (Text t).
Proof.
  unfold files. rewrite lookup_omap.
  destruct (contents fs !! p) as [[t'|]|]; cbn; split; congruence.
Qed.

Lemma files_lookup_insert c w p d :
  files {| contents := <[p := Text d]> c; writable := w |} !! p = Some d.
Proof. apply files_lookup. cbn [contents]. apply lookup_insert_eq. Qed.

Lemma read_text_inr p fs t :
  read_text p fs = inr t <-> files fs !! p = Some t.
Proof.
  rewrite files_lookup. unfold read_text.
  destruct (contents fs !! p) as [[t'|]|]; split; congruence.
Qed.

Lemma main_inr fs fs' :
  main fs = inr fs' <->
  exists t, files fs !! grammar_js = Some t /\ writable fs sql_ts = true
    /\ fs' = {| contents := <[sql_ts := Text (rendered (keywords t))]>
                               (contents fs);
                writable := writable fs |}.
Proof.
  unfold main. split.
  - destruct (read_text grammar_js fs) as [e|t] eqn:Hr; [done|].
    apply read_text_inr in Hr. cbn [bind].
    rewrite generate_rendered. cbn [bind]. unfold write_text.
    destruct (writable fs sql_ts); [|done]. intros [= <-]. eauto.
  - intros (t & Hr%read_text_inr & Hw & ->). rewrite Hr. cbn [bind].
    rewrite generate_rendered. cbn [bind]. unfold write_text. by rewrite Hw.
Qed.

Lemma no_occurrence_keywords t :
  (forall i k, ~ occurs_at t i k) -> keywords t = [].
Proof.
  intros Hno. unfold keywords.
  rewrite <- (occurrences_unique t [] _); [done| |apply occurrences_captures].
  split; [constructor|]. intros i k. split; [by intros ?%elem_of_nil|].
  intros H. by apply Hno in H.
Qed.

(** The keywords of a text are those of the list of its occurrences. *)
Lemma occurrences_keywords t l : occurrences t l -> keywords t = l.*2.
Proof.
  intros Hl. unfold keywords.
  by rewrite (occurrences_unique t l _ Hl (occurrences_captures t)).
Qed.

(** * The claims *)

(** C1. When the pattern occurs in the input n times, around the keywords
    k1, ..., kn in the order of appearance, the text generated holds
    exactly these n keywords as quoted elements of the list, in that
    order; a keyword that occurs twice is listed twice. *)
Theorem generate_occurrences t l :
  occurrences t l ->
  keywords t = l.*2
  /\ generate t =
     inr (str "export const KEYWORDS = [" ++ [NL]
          ++ concat (map (fun k => str "  '" ++ k ++ str "'," ++ [NL]) l.*2)
          ++ str "]" ++ [NL]).
Proof.
  intros Hl%occurrences_keywords. split; [done|].
  rewrite generate_rendered, Hl. unfold rendered, header, footer.
  by rewrite <- app_assoc.
Qed.

(** C2. On every input the text generated is one declaration of a named
    list: the line that declares and opens it, then each captured keyword
    in single quotes on a line of its own with a comma after it, then the
    closing bracket on a line of its own; it holds one opening and one
    closing bracket, so one list and no more. *)
Theorem generate_one_list t :
  generate t = inr (rendered (keywords t))
  /\ lines (rendered (keywords t)) =
     str "export const KEYWORDS = ["
     :: map (fun k => str "  '" ++ k ++ str "',") (keywords t)
     ++ [str "]"; []]
  /\ count (ord "[") (rendered (keywords t)) = 1
  /\ count (ord "]") (rendered (keywords t)) = 1.
Proof.
  pose proof (scan_keywords _ _ _ (finditer_scan 0 t)) as Hks.
  split; [apply generate_rendered|]. split; [by apply lines_rendered|].
  split; rewrite count_rendered; auto.
Qed.

(** C3. A text that only resembles the pattern, the argument in single
    quotes or not quoted at all, yields no keyword wherever it stands,
    and whatever is captured stands in the input in the exact form, the
    marker, the parenthesis and the argument in double quotes. *)
Theorem near_matches_not_captured pre t post :
  Forall (fun c => keyword_char c = true) t ->
  keywords (pre ++ single_quoted t ++ post) = keywords pre ++ keywords post
  /\ keywords (pre ++ unquoted t ++ post) = keywords pre ++ keywords post
  /\ forall s i k, (i, k) ∈ captures (finditer s) ->
       exists a b, s = a ++ str "kw(" ++ [DQUOTE] ++ k ++ [DQUOTE] ++ str ")" ++ b
                   /\ length a = i.
Proof.
  intros Ht. split; [|split].
  - rewrite <- (keywords_single_quoted t post Ht).
    unfold single_quoted. rewrite <- !app_assoc. apply keywords_app.
  - rewrite <- (keywords_unquoted t post Ht).
    unfold unquoted. rewrite <- !app_assoc. apply keywords_app.
  - intros s i k (_ & a & b & -> & <-)%occurrences_captures.
    exists a, b. split; [|done]. unfold occurrence.
    by rewrite <- !app_assoc.
Qed.


(** C5, as amended. For an input with no occurrence of the pattern the
    text written is the declaration line with its opening bracket, a line
    feed, the closing bracket and a line feed; for an input where the
    pattern occurs around select, from and group by, in this order, it is
    the declaration line followed by the three quoted keywords, each on
    its line with its comma, and the closing bracket. *)
Theorem generate_examples t i1 i2 i3 :
  ((forall i k, ~ occurs_at t i k) ->
   generate t = inr (str "export const KEYWORDS = [" ++ [NL] ++ str "]" ++ [NL]))
  /\ (occurrences t [(i1, str "select"); (i2, str "from"); (i3, str "group by")] ->
      generate t =
      inr (str "export const KEYWORDS = [" ++ [NL]
           ++ str "  'select'," ++ [NL]
           ++ str "  'from'," ++ [NL]
           ++ str "  'group by'," ++ [NL]
           ++ str "]" ++ [NL])).
Proof.
  split.
  - intros Hks%no_occurrence_keywords. by rewrite generate_rendered, Hks.
  - intros Hl. by rewrite generate_rendered, (occurrences_keywords _ _ Hl).
Qed.

(** C6. The run is deterministic and can be repeated: a second run on
    the file system the first one left changes nothing, and two runs on
    file systems that hold the same input file write the same content. *)
Theorem main_idempotent fs fs1 :
  main fs = inr fs1 ->
  main fs1 = inr fs1
  /\ forall fs' fs1',
       files fs' !! grammar_js = files fs !! grammar_js ->
       main fs' = inr fs1' ->
       files fs1' !! sql_ts = files fs1 !! sql_ts.
Proof.
  intros (t & Hr & Hw & ->)%main_inr. split.
  - apply main_inr. exists t. cbn [contents writable].
    split; [|by rewrite insert_insert_eq].
    apply files_lookup. cbn [contents]. rewrite lookup_insert_ne by done.
    by apply files_lookup.
  - intros fs' fs1' Hsame (t' & Hr' & Hw' & ->)%main_inr.
    rewrite !files_lookup_insert. congruence.
Qed.

(** C7. The scan goes through the whole input from left to right and
    collects every occurrence of the pattern, and nothing else; the
    matches do not overlap; every keyword captured is made of word
    characters and spaces only. *)
Theorem finditer_all_occurrences t :
  spaced 0 (finditer t)
  /\ Forall (fun m => m_end m <= length t) (finditer t)
  /\ Forall (fun m => exists k, keyword k /\ group 1 m = Some k
                       /\ m_end m = m_start m + length (occurrence k))
       (finditer t)
  /\ (forall i k, (i, k) ∈ captures (finditer t) <-> occurs_at t i k)
  /\ Forall (Forall (fun c => uni_is_word c = true \/ c = SPACE)) (keywords t).
Proof.
  pose proof (finditer_scan 0 t) as Hs. fold (finditer t) in Hs.
  destruct (scan_spaced _ _ _ Hs) as [Hsp Hend].
  split; [done|]. split; [done|]. split; [by apply scan_extent in Hs|].
  split; [apply occurrences_captures|].
  eapply Forall_impl; [exact (scan_keywords _ _ _ Hs)|].
  intros k [_ Hk]. eapply Forall_impl; [exact Hk|].
  intros c [?|?%N.eqb_eq]%orb_true_iff; auto.
Qed.

(** C8. The file written is made anew on each run: what the run leaves
    in it is a function of the input text alone, whatever the file held
    before, and no other file changes. *)
Theorem main_overwrites fs fs' :
  main fs = inr fs' ->
  exists t, files fs !! grammar_js = Some t
    /\ files fs' !! sql_ts = Some (rendered (keywords t))
    /\ (forall p, p <> sql_ts -> contents fs' !! p = contents fs !! p)
    /\ forall old,
         main {| contents := <[sql_ts := old]> (contents fs);
                 writable := writable fs |} = inr fs'.
Proof.
  intros (t & Hr & Hw & ->)%main_inr. exists t.
  split; [done|]. split; [apply files_lookup_insert|]. split.
  - intros p Hp. cbn [contents]. by rewrite lookup_insert_ne.
  - intros old. apply main_inr. exists t. cbn [contents writable].
    split; [|by rewrite insert_insert_eq].
    apply files_lookup. cbn [contents]. rewrite lookup_insert_ne by done.
    by apply files_lookup.
Qed.

(** C9. No keyword captured is empty: the marker with an empty quoted
    argument does not match, and it adds no element to the list wherever
    it stands. *)
Theorem keyword_never_empty :
  (forall t, Forall (fun k => k <> []) (keywords t))
  /\ (forall post, sre_match pattern [] (empty_quoted ++ post) = None)
  /\ (forall pre post,
        keywords (pre ++ empty_quoted ++ post) = keywords pre ++ keywords post).
Proof.
  split; [|split].
  - intros t. eapply Forall_impl; [exact (scan_keywords _ _ _ (finditer_scan 0 t))|].
    by intros k [? _].
  - apply sre_match_empty_quoted.
  - intros pre post. rewrite <- (keywords_empty_quoted post).
    unfold empty_quoted. rewrite <- !app_assoc. apply keywords_app.
Qed.

(** C10. The marker is not anchored at the start of a word: an
    occurrence is captured whatever stands before it, so the input that
    reads mkw, an opening parenthesis and x in double quotes, then the
    closing parenthesis, yields the keyword x. *)
Theorem marker_not_anchored pre k post :
  keyword k ->
  (length pre, k) ∈ captures (finditer (pre ++ occurrence k ++ post))
  /\ k ∈ keywords (pre ++ occurrence k ++ post)
  /\ generate (str "m" ++ occurrence (str "x")) =
     inr (header ++ quoted (str "x") ++ footer).
Proof.
  intros Hk.
  assert (Hin : (length pre, k)
                  ∈ captures (finditer (pre ++ occurrence k ++ post))).
  { apply occurrences_captures. split; [done|]. by exists pre, post. }
  split; [done|]. split.
  - unfold keywords. apply list_elem_of_fmap. by exists (length pre, k).
  - rewrite generate_rendered. cbn [str app].
    rewrite keywords_skip_char by done.
    rewrite <- (app_nil_r (occurrence _)), keywords_hit, keywords_nil.
    + unfold rendered. cbn [map concat]. by rewrite app_nil_r.
    + split; [done|]. repeat constructor.
Qed.

(** * Further properties of the script *)

(** One attempt of the pattern succeeds exactly on a text that starts
    with the marker, the parenthesis and a non-empty quoted run of word
    characters and spaces; it takes just that, and the marks it leaves
    delimit the run. Giving characters back never helps: the run taken is
    the whole run up to the closing quote. *)
Theorem sre_match_spec s ms rest :
  sre_match pattern [] s = Some (ms, rest) <->
  exists k, keyword k /\ s = occurrence k ++ rest /\ ms = match_marks k rest.
Proof.
  split; [apply sre_match_inv|].
  intros (k & Hk & -> & ->). by apply sre_match_occurrence.
Qed.

(** A search fails exactly when the pattern occurs nowhere in the text;
    when it succeeds, the match is the occurrence of the least offset and
    the text handed back is what follows it. *)
Theorem search_leftmost pos s :
  (search pos s = None <-> forall j k, ~ occurs_at s j k)
  /\ forall m rest, search pos s = Some (m, rest) ->
       exists j k, occurs_at s j k /\ m = match_of (pos + j) k rest
         /\ rest = drop (j + length (occurrence k)) s
         /\ forall j' k', occurs_at s j' k' -> j <= j'.
Proof.
  split.
  - split.
    + intros H j k [post Hm]%occurs_at_drop.
      by rewrite (search_None _ _ H j) in Hm.
    + intros Hno. destruct (search pos s) as [[m rest]|] eqn:H; [|done].
      destruct (search_Some _ _ _ _ H) as (pre & k & Hk & -> & _).
      destruct (Hno (length pre) k). split; [done|]. by exists pre, rest.
  - intros m rest H.
    destruct (search_Some _ _ _ _ H) as (pre & k & Hk & -> & -> & Hleft).
    exists (length pre), k. split; [|split; [done|split]].
    + split; [done|]. by exists pre, rest.
    + by rewrite app_assoc, <- length_app, drop_app_length.
    + intros j' k' [post Hm]%occurs_at_drop.
      destruct (decide (length pre <= j')) as [|Hlt]; [done|].
      rewrite Hleft in Hm by lia. done.
Qed.


Lemma scan_size pos s ms :
  scan pos s ms ->
  length (concat (map quoted (captures ms).*2)) <= length s
  /\ 7 * length (captures ms).*2 <= length s.
Proof.
  induction 1 as [pos|pos c s ms Hm Hs [IH1 IH2]|pos k rest ms Hk Hs [IH1 IH2]].
  - done.
  - simpl. lia.
  - rewrite captures_cons. cbn [fmap list_fmap snd map concat length].
    unfold quoted at 1, occurrence. rewrite !length_app.
    cbn [str length].
    destruct Hk as [Hne _]. destruct k; [done|]. cbn [length]. lia.
Qed.

(** The text written is at most 28 characters longer than the text read,
    and a text of n characters yields at most n/7 keywords: a quoted
    element takes as many characters as the occurrence it comes from. *)
Theorem generate_size t :
  exists out, generate t = inr out
    /\ length out <= length t + 28
    /\ 7 * length (keywords t) <= length t.
Proof.
  exists (rendered (keywords t)). split; [apply generate_rendered|].
  destruct (scan_size _ _ _ (finditer_scan 0 t)) as [H1 H2].
  split; [|done]. unfold rendered, keywords, finditer.
  rewrite !length_app.
  change (length header) with 26. change (length footer) with 2. lia.
Qed.

(** Each match spans an occurrence of the pattern in the text:
    [text[m.start():m.end()]] is the marker call around [m.group(1)]. *)
Theorem finditer_span t :
  Forall (fun m => exists k, group 1 m = Some k
            /\ take (m_end m - m_start m) (drop (m_start m) t) = occurrence k)
         (finditer t).
Proof.
  pose proof (finditer_scan 0 t) as Hs. fold (finditer t) in Hs.
  pose proof (scan_extent _ _ _ Hs) as Hext.
  rewrite Forall_forall in Hext. apply Forall_forall. intros m Hm.
  destruct (Hext m Hm) as (k & Hk & Hg & He). exists k. split; [done|].
  assert (Hin : (m_start m, k) ∈ captures (finditer t)).
  { apply list_elem_of_omap. exists m. split; [done|]. by rewrite Hg. }
  apply occurrences_captures in Hin as (_ & pre & post & -> & Hpre).
  rewrite He, Nat.add_comm, Nat.add_sub, <- Hpre, drop_app_length.
  apply take_app_length.
Qed.

Lemma rendered_inj ks ks' :
  Forall keyword ks -> Forall keyword ks' ->
  rendered ks = rendered ks' -> ks = ks'.
Proof.
  intros Hks Hks' E. apply (f_equal lines) in E.
  rewrite !lines_rendered in E by done. injection E as E.
  apply app_inv_tail in E. clear Hks Hks'. revert ks' E.
  induction ks as [|k ks IH]; intros [|k' ks'] E; try done.
  injection E as Ek E. f_equal; [|by apply IH].
  by apply app_inv_tail in Ek.
Qed.

(** The script writes the keywords between single quotes without escaping
    them, and need not: no keyword holds a single quote, a backslash or a
    line feed. So the text written tells the keywords: two inputs give
    the same text exactly when they hold the same keywords in the same
    order. *)
Theorem generate_tells_keywords t t' :
  (generate t = generate t' <-> keywords t = keywords t')
  /\ Forall (fun k => (ord "'" ∉ k) /\ (92%N ∉ k) /\ (NL ∉ k)) (keywords t).
Proof.
  pose proof (scan_keywords _ _ _ (finditer_scan 0 t)) as Hks.
  pose proof (scan_keywords _ _ _ (finditer_scan 0 t')) as Hks'.
  split.
  - rewrite !generate_rendered. split; [|congruence].
    intros E. apply rendered_inj; [exact Hks | exact Hks' | congruence].
  - eapply Forall_impl; [exact Hks|]. intros k [_ Hk].
    rewrite Forall_forall in Hk.
    repeat split; intros Hc%Hk; by vm_compute in Hc.
Qed.

Lemma keywords_no_paren s : ord "(" ∉ s -> keywords s = [].
Proof.
  induction s as [|c s IH]; intros Hs; [apply keywords_nil|].
  apply not_elem_of_cons in Hs as Hcs. destruct Hcs as [_ Hs'].
  rewrite keywords_skip; [by apply IH|].
  destruct (sre_match pattern [] (c :: s)) as [r|] eqn:H; [|done].
  exfalso. apply sre_match_starts in H as [x [= -> ->]]. apply Hs.
  do 2 right. by left.
Qed.

(** The text written holds no occurrence of the pattern: the script run
    on its own output writes the empty list. *)
Theorem generate_own_output t :
  exists out, generate t = inr out
    /\ keywords out = []
    /\ generate out = inr (header ++ footer).
Proof.
  pose proof (scan_keywords _ _ _ (finditer_scan 0 t)) as Hks.
  fold (finditer t) in Hks. fold (keywords t) in Hks.
  exists (rendered (keywords t)). split; [apply generate_rendered|].
  assert (Hno : keywords (rendered (keywords t)) = []).
  { apply keywords_no_paren. unfold rendered. rewrite !elem_of_app.
    intros [H|[H|H]].
    - revert H. apply (bool_decide_unpack _). by vm_compute.
    - induction Hks as [|k ks Hk Hks IH]; [by apply elem_of_nil in H|].
      cbn [map concat] in H. apply elem_of_app in H as [H|H]; [|done].
      unfold quoted in H. rewrite !elem_of_app in H.
      destruct Hk as [_ Hk]. rewrite Forall_forall in Hk.
      destruct H as [H|[H|[H|H]]].
      + revert H. apply (bool_decide_unpack _). by vm_compute.
      + apply Hk in H. by vm_compute in H.
      + revert H. apply (bool_decide_unpack _). by vm_compute.
      + revert H. apply (bool_decide_unpack _). by vm_compute.
    - revert H. apply (bool_decide_unpack _). by vm_compute. }
  split; [done|]. by rewrite generate_rendered, Hno.
Qed.

Lemma elem_of_occurrence c k :
  keyword k -> c ∈ occurrence k ->
  keyword_char c = true \/ c = ord "(" \/ c = DQUOTE \/ c = ord ")".
Proof.
  intros [_ Hk]. unfold occurrence. rewrite !elem_of_app.
  rewrite Forall_forall in Hk. cbn [str]. rewrite !elem_of_cons.
  intros [[->|[->|[->|?%elem_of_nil]]]|[[->|?%elem_of_nil]|[?|[[->|?%elem_of_nil]|[->|?%elem_of_nil]]]]];
    auto.
Qed.

Lemma sre_match_sep_None a c b :
  keyword_char c = false -> c <> ord "(" -> c <> DQUOTE -> c <> ord ")" ->
  a <> [] ->
  sre_match pattern [] a = None ->
  sre_match pattern [] (a ++ c :: b) = None.
Proof.
  intros Hc Hp Hq Hr Ha Hnone.
  destruct (sre_match pattern [] (a ++ _)) as [[ms rest]|] eqn:H; [|done].
  exfalso. destruct (sre_match_inv _ _ _ H) as (k & Hk & He & _).
  apply app_eq_inv in He as [(m & -> & _)|(m & Hm & Hb)].
  - by rewrite (sre_match_occurrence k m Hk) in Hnone.
  - destruct m as [|c' m].
    + rewrite app_nil_r in Hm. subst a.
      pose proof (sre_match_occurrence k [] Hk) as Hm.
      rewrite app_nil_r in Hm. congruence.
    + injection Hb as <- _.
      assert (Hin : c ∈ occurrence k).
      { rewrite Hm. apply elem_of_app. right. by left. }
      apply elem_of_occurrence in Hin as [?|[?|[?|?]]]; [congruence|done..].
Qed.

(** A character that no occurrence can hold (a line feed, a comma, a
    semicolon) separates: the keywords of two texts joined by it are
    those of the first followed by those of the second. A grammar can so
    be scanned line by line. *)
Theorem keywords_separator a c b :
  keyword_char c = false -> c <> ord "(" -> c <> DQUOTE -> c <> ord ")" ->
  keywords (a ++ c :: b) = keywords a ++ keywords b.
Proof.
  intros Hc Hp Hq Hr.
  unfold keywords at 2, finditer. generalize (finditer_scan 0 a).
  generalize (finditer_from 0 a) 0. intros ms0 pos0.
  induction 1 as [pos|pos c' s ms Hm Hs IH|pos k rest ms Hk Hs IH].
  - apply keywords_skip_char. intros ->. by vm_compute in Hc.
  - rewrite <- app_comm_cons, keywords_skip; [done|].
    by apply (sre_match_sep_None (c' :: s)).
  - rewrite <- app_assoc, keywords_hit, captures_cons by done.
    cbn [fmap list_fmap snd app]. by f_equal.
Qed.

End Extractor.

(** * Closed instances

    The texts below hold code points under U+0080 only, so the
    classification of the others is never consulted. *)

Example sample_keywords :
  keywords ascii_only sample = [str "select"; str "from"; str "group by"].
Proof. by vm_compute. Qed.

Example sample_generate :
  generate ascii_only sample =
  inr (str "export const KEYWORDS = [" ++ [NL]
       ++ str "  'select'," ++ [NL]
       ++ str "  'from'," ++ [NL]
       ++ str "  'group by'," ++ [NL]
       ++ str "]" ++ [NL]).
Proof. by vm_compute. Qed.

Example duplicate_keywords :
  keywords ascii_only (occurrence (str "a") ++ occurrence (str "a"))
  = [str "a"; str "a"].
Proof. by vm_compute. Qed.

Example backtracking_finds_nothing :
  keywords ascii_only (str "kw(" ++ [DQUOTE] ++ str "a-b" ++ [DQUOTE] ++ str ")")
  = [].
Proof. by vm_compute. Qed.

Lemma sample_occurrences :
  occurrences ascii_only sample
    [(4, str "select"); (18, str "from"); (30, str "group by")].
Proof.
  assert (E : captures (finditer ascii_only sample)
              = [(4, str "select"); (18, str "from"); (30, str "group by")])
    by (by vm_compute).
  rewrite <- E. apply occurrences_captures.
Qed.

Lemma no_occurrence_of_captures t :
  captures (finditer ascii_only t) = [] ->
  forall i k, ~ occurs_at ascii_only t i k.
Proof.
  intros E i k H. apply occurrences_captures in H. rewrite E in H.
  by apply elem_of_nil in H.
Qed.

Lemma only_grammar_main t :
  main ascii_only (only_grammar t) =
  inr {| contents := <[sql_ts := Text (rendered (keywords ascii_only t))]>
                         {[ grammar_js := Text t ]};
         writable := fun _ => true |}.
Proof.
  apply main_inr. exists t. split; [|by split].
  apply files_lookup. apply lookup_singleton_eq.
Qed.

Lemma generate_occurrences_witness :
  occurrences ascii_only sample
    [(4, str "select"); (18, str "from"); (30, str "group by")]
  /\ keywords ascii_only sample = [str "select"; str "from"; str "group by"]
  /\ generate ascii_only sample =
     inr (str "export const KEYWORDS = [" ++ [NL]
          ++ str "  'select'," ++ [NL]
          ++ str "  'from'," ++ [NL]
          ++ str "  'group by'," ++ [NL]
          ++ str "]" ++ [NL]).
Proof.
  split; [exact sample_occurrences|].
  exact (generate_occurrences ascii_only sample _ sample_occurrences).
Defined.

Lemma near_matches_not_captured_witness :
  Forall (fun c => keyword_char ascii_only c = true) (str "order by")
  /\ keywords ascii_only (sample ++ single_quoted (str "order by") ++ plain)
     = keywords ascii_only sample ++ keywords ascii_only plain
  /\ keywords ascii_only (sample ++ unquoted (str "order by") ++ plain)
     = keywords ascii_only sample ++ keywords ascii_only plain.
Proof.
  assert (H : Forall (fun c => keyword_char ascii_only c = true) (str "order by"))
    by (repeat constructor).
  split; [exact H|].
  destruct (near_matches_not_captured ascii_only sample (str "order by") plain H)
    as (H1 & H2 & _).
  split; [exact H1 | exact H2].
Defined.


(** C5 as the specification words it fails: with no marker in the input
    the text written is not the bare pair of brackets, and with the three
    markers it is not the bare bracketed list; the declaration comes
    first in both. *)
Lemma bare_list_counterexample :
  (forall i k, ~ occurs_at ascii_only [] i k)
  /\ generate ascii_only [] <> inr (str "[" ++ [NL] ++ str "]" ++ [NL])
  /\ keywords ascii_only sample = [str "select"; str "from"; str "group by"]
  /\ generate ascii_only sample <>
     inr (str "[" ++ [NL]
          ++ str "  'select'," ++ [NL]
          ++ str "  'from'," ++ [NL]
          ++ str "  'group by'," ++ [NL]
          ++ str "]" ++ [NL]).
Proof.
  split; [apply no_occurrence_of_captures; by vm_compute|].
  split; [by vm_compute|]. split; [by vm_compute|]. by vm_compute.
Qed.

Lemma generate_examples_witness :
  ((forall i k, ~ occurs_at ascii_only [] i k)
   /\ generate ascii_only [] =
      inr (str "export const KEYWORDS = [" ++ [NL] ++ str "]" ++ [NL]))
  /\ (occurrences ascii_only sample
        [(4, str "select"); (18, str "from"); (30, str "group by")]
      /\ generate ascii_only sample =
         inr (str "export const KEYWORDS = [" ++ [NL]
              ++ str "  'select'," ++ [NL]
              ++ str "  'from'," ++ [NL]
              ++ str "  'group by'," ++ [NL]
              ++ str "]" ++ [NL])).
Proof.
  assert (H : forall i k, ~ occurs_at ascii_only [] i k)
    by (apply no_occurrence_of_captures; by vm_compute).
  split.
  - split; [exact H|].
    exact (proj1 (generate_examples ascii_only [] 0 0 0) H).
  - split; [exact sample_occurrences|].
    exact (proj2 (generate_examples ascii_only sample 4 18 30)
             sample_occurrences).
Defined.

Lemma main_idempotent_witness :
  main ascii_only (only_grammar sample) =
    inr {| contents := <[sql_ts := Text (rendered (keywords ascii_only sample))]>
                         {[ grammar_js := Text sample ]};
           writable := fun _ => true |}
  /\ main ascii_only
       {| contents := <[sql_ts := Text (rendered (keywords ascii_only sample))]>
                        {[ grammar_js := Text sample ]};
          writable := fun _ => true |} =
     inr {| contents := <[sql_ts := Text (rendered (keywords ascii_only sample))]>
                          {[ grammar_js := Text sample ]};
            writable := fun _ => true |}.
Proof.
  split; [exact (only_grammar_main sample)|].
  exact (proj1 (main_idempotent ascii_only _ _ (only_grammar_main sample))).
Defined.

Lemma main_overwrites_witness :
  main ascii_only (only_grammar sample) =
    inr {| contents := <[sql_ts := Text (rendered (keywords ascii_only sample))]>
                         {[ grammar_js := Text sample ]};
           writable := fun _ => true |}
  /\ main ascii_only
       {| contents := <[sql_ts := Text (str "export const KEYWORDS = []")]>
                        (contents (only_grammar sample));
          writable := writable (only_grammar sample) |} =
     inr {| contents := <[sql_ts := Text (rendered (keywords ascii_only sample))]>
                          {[ grammar_js := Text sample ]};
            writable := fun _ => true |}.
Proof.
  split; [exact (only_grammar_main sample)|].
  destruct (main_overwrites ascii_only _ _ (only_grammar_main sample))
    as (t & _ & _ & _ & H).
  exact (H (Text (str "export const KEYWORDS = []"))).
Defined.

Lemma marker_not_anchored_witness :
  keyword ascii_only (str "x")
  /\ (1, str "x") ∈ captures (finditer ascii_only (str "m" ++ occurrence (str "x") ++ []))
  /\ generate ascii_only (str "m" ++ occurrence (str "x")) =
     inr (str "export const KEYWORDS = [" ++ [NL]
          ++ str "  'x'," ++ [NL] ++ str "]" ++ [NL]).
Proof.
  assert (H : keyword ascii_only (str "x"))
    by (split; [discriminate | repeat constructor]).
  split; [exact H|].
  destruct (marker_not_anchored ascii_only (str "m") (str "x") [] H)
    as (H1 & _ & H2).
  split; [exact H1 | exact H2].
Defined.

(** * The table of the runtime and texts under U+0080 *)

Lemma in_set_ascii ua ua' items c :
  (c < 128)%N -> in_set ua items c = in_set ua' items c.
Proof.
  intros Hc%N.ltb_lt. unfold in_set.
  induction items as [|it items IH]; [done|]. cbn [existsb]. rewrite IH.
  f_equal. destruct it; [|done].
  unfold item_matches, uni_is_word, isalnum. by rewrite Hc.
Qed.

Lemma repeat_one_ascii {R} P P' min s (tail tail' : text -> option R) :
  (forall c, (c < 128)%N -> P c = P' c) ->
  (forall x, Forall (fun c => (c < 128)%N) x -> tail x = tail' x) ->
  Forall (fun c => (c < 128)%N) s ->
  repeat_one P min s tail = repeat_one P' min s tail'.
Proof.
  intros HP Ht Hs. revert min. induction Hs as [|c s Hc Hs IH]; intros min.
  - simpl. destruct min; [|done]. by apply Ht.
  - cbn [repeat_one]. rewrite <- (HP c Hc), IH, (Ht (c :: s)); [done|].
    by constructor.
Qed.

Lemma sre_match_ascii ua ua' code ms s :
  Forall (fun c => (c < 128)%N) s ->
  sre_match ua code ms s = sre_match ua' code ms s.
Proof.
  revert ms s. induction code as [|o code IH]; intros ms s Hs; [done|].
  destruct o as [c|i|min items]; cbn [sre_match].
  - destruct Hs as [|d s Hd Hs]; [done|]. destruct (d =? c)%N; auto.
  - auto.
  - apply repeat_one_ascii; [|auto|done]. intros c Hc. by apply in_set_ascii.
Qed.

Lemma keyword_ascii ua ua' k :
  Forall (fun c => (c < 128)%N) k -> keyword ua k -> keyword ua' k.
Proof.
  intros Hk [Hne Hkw]. split; [done|].
  rewrite Forall_forall in Hk, Hkw. apply Forall_forall. intros c Hc.
  rewrite <- (Hkw c Hc). specialize (Hk c Hc). apply N.ltb_lt in Hk.
  unfold keyword_char, uni_is_word, isalnum. by rewrite Hk.
Qed.

Lemma scan_ascii ua ua' pos s ms :
  scan ua pos s ms ->
  Forall (fun c => (c < 128)%N) s ->
  finditer_from ua' pos s = ms.
Proof.
  induction 1 as [pos|pos c s ms Hm Hs IH|pos k rest ms Hk Hs IH]; intros Ha.
  - apply finditer_from_nil.
  - rewrite finditer_from_skip; [apply IH; by inversion Ha|].
    by rewrite <- (sre_match_ascii ua).
  - apply Forall_app in Ha as [Ho Hr]. rewrite finditer_from_hit.
    + f_equal. by apply IH.
    + apply (keyword_ascii ua); [|done]. unfold occurrence in Ho.
      by apply Forall_app in Ho as (_ & (_ & (? & _)%Forall_app)%Forall_app).
Qed.

(** The scan of a text of code points under U+0080 does not depend on
    the table of the runtime that classifies the others: the matches and
    the text written are the same under any two tables. *)
Theorem generate_ascii ua ua' t :
  Forall (fun c => (c < 128)%N) t ->
  finditer ua t = finditer ua' t /\ generate ua t = generate ua' t.
Proof.
  intros Ha.
  assert (E : finditer ua t = finditer ua' t).
  { unfold finditer. symmetry. apply (scan_ascii ua); [|done].
    apply finditer_scan. }
  split; [done|]. unfold generate. by rewrite E.
Qed.

Lemma generate_ascii_witness :
  Forall (fun c => (c < 128)%N) sample
  /\ finditer ascii_only sample = finditer (fun _ => true) sample
  /\ generate ascii_only sample = generate (fun _ => true) sample.
Proof.
  assert (H : Forall (fun c => (c < 128)%N) sample)
    by (apply (bool_decide_unpack _); by vm_compute).
  split; [exact H|].
  exact (generate_ascii ascii_only (fun _ => true) sample H).
Defined.

Lemma keywords_separator_witness :
  keyword_char ascii_only NL = false
  /\ NL <> ord "(" /\ NL <> DQUOTE /\ NL <> ord ")"
  /\ keywords ascii_only (sample ++ NL :: sample)
     = keywords ascii_only sample ++ keywords ascii_only sample.
Proof.
  assert (H1 : keyword_char ascii_only NL = false) by reflexivity.
  assert (H2 : NL <> ord "(") by discriminate.
  assert (H3 : NL <> DQUOTE) by discriminate.
  assert (H4 : NL <> ord ")") by discriminate.
  split; [exact H1|]. split; [exact H2|]. split; [exact H3|].
  split; [exact H4|].
  exact (keywords_separator ascii_only sample NL sample H1 H2 H3 H4).
Defined.
